(** * The link command of the link feature

    A shallow embedding of [packages/ckeditor5-link/src/linkcommand.js]
    ([LinkCommand]: [refresh], [execute], [_checkEnabled]) together with
    a model of the parts of the editing engine the command talks to:
    the document content, ranges, the selection, the schema and batches.

    The document is kept in its linear form: the sequence of items a
    tree walker yields (characters, element starts, element ends).  A
    position is an offset into that sequence and a range is a pair of
    offsets. *)

From Stdlib Require Import List String Ascii Arith Bool Lia.
Import ListNotations.
Local Open Scope string_scope.
Local Open Scope nat_scope.

(* ------------------------------------------------------------------ *)
(** ** A small state monad

    The command reaches into [this.editor.document] and mutates it; the
    embedding threads that state explicitly. *)

Definition M (S A : Type) : Type := S -> A * S.

Definition ret {S A} (a : A) : M S A := fun s => (a, s).

Definition bind {S A B} (m : M S A) (k : A -> M S B) : M S B :=
  fun s => let (a, s') := m s in k a s'.

Definition gets {S A} (f : S -> A) : M S A := fun s => (f s, s).

Definition modify {S} (f : S -> S) : M S unit := fun s => (tt, f s).

Definition exec {S A} (m : M S A) (s : S) : S := snd (m s).

Definition eval {S A} (m : M S A) (s : S) : A := fst (m s).

Declare Scope monad_scope.
Delimit Scope monad_scope with monad.
Notation "x <- m ;; k" := (bind m (fun x => k))
  (at level 61, m at next level, right associativity) : monad_scope.
Notation "m ;; k" := (bind m (fun _ => k))
  (at level 61, right associativity) : monad_scope.
Local Open Scope monad_scope.

(** [for ( const x of xs ) body( x )] *)
Fixpoint forEach {S A} (xs : list A) (body : A -> M S unit) : M S unit :=
  match xs with
  | [] => ret tt
  | x :: rest => body x ;; forEach rest body
  end.

(* ------------------------------------------------------------------ *)
(** ** Items, text nodes, ranges *)

(** Modelled from the spec: the document, an ordered tree of text runs
    and elements, as the engine's model stores it.  An item is one step
    of a walk over that tree.  Only the ['linkHref'] attribute is
    tracked; [None] is a node without it. *)
Inductive Item : Type :=
| Character (c : ascii) (linkHref : option string)
| ElementStart (name : string) (linkHref : option string)
| ElementEnd.

(** The item with its ['linkHref'] attribute set.  An element end is not
    a node of its own and carries nothing. *)
Definition Item_setAttribute (value : string) (it : Item) : Item :=
  match it with
  | Character c _ => Character c (Some value)
  | ElementStart n _ => ElementStart n (Some value)
  | ElementEnd => ElementEnd
  end.

(** The item without its attribute: what is left is the node structure
    and the text. *)
Definition Item_shape (it : Item) : Item :=
  match it with
  | Character c _ => Character c None
  | ElementStart n _ => ElementStart n None
  | ElementEnd => ElementEnd
  end.

(** The name the schema knows a node by. *)
Definition Item_name (it : Item) : option string :=
  match it with
  | Character _ _ => Some "$text"
  | ElementStart n _ => Some n
  | ElementEnd => None
  end.

(** Modelled from the spec: the engine's text node,
    [new Text( data, { linkHref } )].  It is detached when it is
    created; inserting it attaches it, which is when it learns its
    start offset. *)
Record Text : Type := new_Text_at {
  data : string;
  textLinkHref : option string;
  startOffset : option nat
}.

Definition new_Text (data : string) (linkHref : option string) : Text :=
  new_Text_at data linkHref None.

(** The items a text node contributes: one per character, all with the
    node's attribute. *)
Definition Text_items (node : Text) : list Item :=
  map (fun c => Character c (textLinkHref node))
      (list_ascii_of_string (data node)).

(** Modelled from the spec: an element as the selection hands it out. *)
Record Element : Type := new_Element {
  name : string;
  elementLinkHref : option string
}.

Definition Element_is (e : Element) (kind : string) : bool :=
  String.eqb (name e) kind.

Record Range : Type := new_Range {
  start : nat;
  end_ : nat
}.

Definition Range_isCollapsed (r : Range) : bool := start r =? end_ r.

Definition Range_contains (r : Range) (i : nat) : bool :=
  (start r <=? i) && (i <? end_ r).

Definition inRanges (rs : list Range) (i : nat) : bool :=
  existsb (fun r => Range_contains r i) rs.

(** Modelled from the spec: [Range.createOn( node )], the range that
    exactly spans one node, from just before it to just after it.  A
    detached node has no place in the document; the model places it at
    offset 0. *)
Definition Range_createOn (node : Text) : Range :=
  let s := match startOffset node with Some s => s | None => 0 end in
  new_Range s (s + String.length (data node)).

(* ------------------------------------------------------------------ *)
(** ** The schema *)

(** Modelled from the spec: the schema restricts which nodes may carry
    the attribute.  [schema.check( { name, inside, attributes:
    'linkHref' } )]: may a node called [name] (["$text"] for text),
    sitting inside the elements [inside] (innermost first), carry it. *)
Record Schema : Type := new_Schema {
  check : list string -> string -> bool
}.

(** The elements open at an item: what [inside] is for a position. *)
Definition enter (inside : list string) (it : Item) : list string :=
  match it with
  | Character _ _ => inside
  | ElementStart n _ => n :: inside
  | ElementEnd => tl inside
  end.

Definition ancestors (items : list Item) (offset : nat) : list string :=
  fold_left enter (firstn offset items) [].

(** Whether the schema lets the item at [offset] carry the attribute.
    Element ends and offsets past the document are no nodes: nothing is
    disallowed there. *)
Definition legalAt (schema : Schema) (items : list Item) (offset : nat) : bool :=
  match nth_error items offset with
  | Some it =>
      match Item_name it with
      | Some n => check schema (ancestors items offset) n
      | None => true
      end
  | None => true
  end.

(** Modelled from the spec: the schema reduces one range to the maximal
    sub-ranges where the attribute is legal; nodes where it is
    disallowed are excluded, splitting the range as needed.  [walk]
    visits the [count] items from [offset] on; [from] is where the
    sub-range being grown began. *)
Fixpoint walk (schema : Schema) (items : list Item)
    (count offset from : nat) : list Range :=
  match count with
  | 0 => if from <? offset then [new_Range from offset] else []
  | S count' =>
      if legalAt schema items offset
      then walk schema items count' (S offset) from
      else (if from <? offset then [new_Range from offset] else [])
           ++ walk schema items count' (S offset) (S offset)
  end.

Definition getValidRange (schema : Schema) (items : list Item)
    (range : Range) : list Range :=
  walk schema items (end_ range - start range) (start range) (start range).

(** Modelled from the spec: [schema.getValidRanges( ranges, 'linkHref' )],
    each range reduced on its own, the results in order. *)
Definition getValidRanges (schema : Schema) (items : list Item)
    (ranges : list Range) : list Range :=
  flat_map (getValidRange schema items) ranges.

(* ------------------------------------------------------------------ *)
(** ** The range expander *)

(** Whether a node is text carrying the attribute with exactly [value]. *)
Definition carries (value : option string) (it : Item) : bool :=
  match it, value with
  | Character _ (Some v'), Some v => String.eqb v' v
  | _, _ => false
  end.

(** Walk backward from [position] while the node before is such text. *)
Fixpoint findBoundBack (items : list Item) (value : option string)
    (position : nat) : nat :=
  match position with
  | 0 => 0
  | S before =>
      match nth_error items before with
      | Some it =>
          if carries value it then findBoundBack items value before
          else position
      | None => position
      end
  end.

(** The number of leading nodes that are such text. *)
Fixpoint runLength (value : option string) (items : list Item) : nat :=
  match items with
  | it :: rest => if carries value it then S (runLength value rest) else 0
  | [] => 0
  end.

(** Walk forward from [position] while the node after is such text. *)
Definition findBoundForward (items : list Item) (value : option string)
    (position : nat) : nat :=
  position + runLength value (skipn position items).

(** Modelled from the spec: [findLinkRange( position, value )] from
    [./findlinkrange], the range expander.  It walks backward from the
    position while the adjacent node is text and carries the attribute
    with a value equal to [value], walks forward symmetrically, and
    returns the range between the farthest boundaries reached.  Any
    non-text node, text without the attribute or with another value
    halts the walk on that side.  It is a pure query. *)
Definition findLinkRange (items : list Item) (position : nat)
    (value : option string) : Range :=
  new_Range (findBoundBack items value position)
            (findBoundForward items value position).

(* ------------------------------------------------------------------ *)
(** ** The document *)

(** Modelled from the spec: what a batch can be asked to do,
    [setAttribute( range, 'linkHref', value )] and
    [insert( position, node )]. *)
Inductive Operation : Type :=
| SetAttribute (range : Range) (value : string)
| Insert (position : nat) (node : Text).

(** Modelled from the spec: what the document records as it is used,
    change blocks opening and closing, batches being created, and
    operations applied through a batch.  A batch is known by its
    number. *)
Inductive Event : Type :=
| ChangesStart
| BatchCreated (batch : nat)
| Applied (batch : nat) (op : Operation)
| ChangesDone.

Record Document : Type := new_Document {
  content : list Item;
  selection : list Range;
  schema : Schema;
  log : list Event
}.

Definition with_content (d : Document) (c : list Item) : Document :=
  new_Document c (selection d) (schema d) (log d).

Definition with_selection (d : Document) (rs : list Range) : Document :=
  new_Document (content d) rs (schema d) (log d).

Definition record (e : Event) (d : Document) : Document :=
  new_Document (content d) (selection d) (schema d) (log d ++ [e]).

(** The two answers of the engine that neither the command nor the spec
    pins down.  Everything below holds for any engine.

    [selectionAttribute] is the value of ['linkHref'] on the live
    selection, which the engine derives from the document and the
    selection's ranges.

    [checkAttributeInSelection] is the schema's answer to whether the
    attribute is permissible for the current selection. *)
Class Engine : Type := {
  selectionAttribute : list Item -> list Range -> option string;
  checkAttributeInSelection : Schema -> list Item -> list Range -> bool
}.

(* ------------------------------------------------------------------ *)
(** ** The engine's operations on content *)

(** [f] applied to the items at the offsets [keep] accepts, counting
    from [offset]. *)
Fixpoint mapAt (keep : nat -> bool) (f : Item -> Item) (offset : nat)
    (items : list Item) : list Item :=
  match items with
  | [] => []
  | it :: rest =>
      (if keep offset then f it else it) :: mapAt keep f (S offset) rest
  end.

(** Modelled from the spec: setting the attribute over a range gives
    every node the range walks over the value, and touches nothing
    else. *)
Definition setAttributeOn (range : Range) (value : string)
    (items : list Item) : list Item :=
  mapAt (Range_contains range) (Item_setAttribute value) 0 items.

(** Where a node inserted at [position] ends up: a position past the
    end of the document is the end of the document. *)
Definition attachOffset (items : list Item) (position : nat) : nat :=
  Nat.min position (List.length items).

(** Modelled from the spec: inserting a text node at a position puts
    its characters there and moves nothing else. *)
Definition insertAt (position : nat) (node : Text)
    (items : list Item) : list Item :=
  firstn position items ++ Text_items node ++ skipn position items.

Definition applyOperation (items : list Item) (op : Operation) : list Item :=
  match op with
  | SetAttribute range value => setAttributeOn range value items
  | Insert position node => insertAt position node items
  end.

(** The operations replayed in order. *)
Definition replay (ops : list Operation) (items : list Item) : list Item :=
  fold_left applyOperation ops items.

(** The number of batches the log has seen created. *)
Fixpoint batchCount (events : list Event) : nat :=
  match events with
  | [] => 0
  | BatchCreated _ :: rest => S (batchCount rest)
  | _ :: rest => batchCount rest
  end.

(** The number of change blocks the log has seen opened. *)
Fixpoint changeBlockCount (events : list Event) : nat :=
  match events with
  | [] => 0
  | ChangesStart :: rest => S (changeBlockCount rest)
  | _ :: rest => changeBlockCount rest
  end.

(* ------------------------------------------------------------------ *)
(** ** The engine's interface, as the command uses it *)

Section Interface.

Context {engine : Engine}.

(** Modelled from the spec: [selection.isCollapsed], a single position,
    that is exactly one range, and it is collapsed. *)
Definition Selection_isCollapsed : M Document bool :=
  gets (fun d =>
    match selection d with
    | [r] => Range_isCollapsed r
    | _ => false
    end).

(** Modelled from the spec: [selection.getFirstPosition()], the start
    of the range that starts first.  Without ranges there is none
    ([null]); the model answers 0, and [execute] asks only when there
    is exactly one range. *)
Definition firstPositionOf (ranges : list Range) : nat :=
  match ranges with
  | [] => 0
  | r :: rest => fold_left Nat.min (map start rest) (start r)
  end.

Definition Selection_getFirstPosition : M Document nat :=
  gets (fun d => firstPositionOf (selection d)).

(** [selection.getAttribute( 'linkHref' )] *)
Definition Selection_getAttribute : M Document (option string) :=
  gets (fun d => selectionAttribute (content d) (selection d)).

(** [selection.hasAttribute( 'linkHref' )] *)
Definition Selection_hasAttribute : M Document bool :=
  gets (fun d =>
    match selectionAttribute (content d) (selection d) with
    | Some _ => true
    | None => false
    end).

(** [selection.getRanges()] *)
Definition Selection_getRanges : M Document (list Range) :=
  gets selection.

(** [selection.setRanges( ranges )] *)
Definition Selection_setRanges (ranges : list Range) : M Document unit :=
  modify (fun d => with_selection d ranges).

(** The offset just past the end of an element, counted from after its
    start; [depth] is the number of elements opened on the way. *)
Fixpoint elementSize (depth : nat) (items : list Item) : option nat :=
  match items with
  | [] => None
  | ElementEnd :: rest =>
      match depth with
      | 0 => Some 1
      | S depth' => option_map S (elementSize depth' rest)
      end
  | ElementStart _ _ :: rest => option_map S (elementSize (S depth) rest)
  | Character _ _ :: rest => option_map S (elementSize depth rest)
  end.

(** Modelled from the spec: [selection.getSelectedElement()], the
    element the selection resolves to when it selects exactly one: a
    single range that starts right before an element and ends right
    after that same element.  [null] ([None]) otherwise. *)
Definition getSelectedElement (items : list Item) (ranges : list Range)
    : option Element :=
  match ranges with
  | [r] =>
      match skipn (start r) items with
      | ElementStart n a :: inner =>
          match elementSize 0 inner with
          | Some size =>
              if end_ r =? start r + 1 + size
              then Some (new_Element n a) else None
          | None => None
          end
      | _ => None
      end
  | _ => None
  end.

Definition Selection_getSelectedElement : M Document (option Element) :=
  gets (fun d => getSelectedElement (content d) (selection d)).

(** [schema.checkAttributeInSelection( selection, 'linkHref' )] *)
Definition Schema_checkAttributeInSelection : M Document bool :=
  gets (fun d => checkAttributeInSelection (schema d) (content d) (selection d)).

(** [schema.getValidRanges( ranges, 'linkHref' )] *)
Definition Schema_getValidRanges (ranges : list Range)
    : M Document (list Range) :=
  gets (fun d => getValidRanges (schema d) (content d) ranges).

(** [findLinkRange( position, value )]; the position knows its document. *)
Definition findLinkRange_ (position : nat) (value : option string)
    : M Document Range :=
  gets (fun d => findLinkRange (content d) position value).

(** Modelled from the spec: [doc.enqueueChanges( callback )] scopes one
    change block; the callback runs synchronously and performs all its
    writes before the block ends. *)
Definition Document_enqueueChanges (callback : M Document unit)
    : M Document unit :=
  modify (record ChangesStart) ;;
  callback ;;
  modify (record ChangesDone).

(** Modelled from the spec: [doc.batch()], a new batch, the unit of
    grouped mutations. *)
Definition Document_batch : M Document nat :=
  batch <- gets (fun d => batchCount (log d)) ;;
  modify (record (BatchCreated batch)) ;;
  ret batch.

(** Modelled from the spec: every change to the content goes through a
    batch, which the document records. *)
Definition Batch_apply (batch : nat) (op : Operation) : M Document unit :=
  modify (fun d =>
    record (Applied batch op)
           (with_content d (applyOperation (content d) op))).

(** [batch.setAttribute( range, 'linkHref', value )] *)
Definition Batch_setAttribute (batch : nat) (range : Range)
    (value : string) : M Document unit :=
  Batch_apply batch (SetAttribute range value).

(** [batch.insert( position, node )].  The node comes back attached. *)
Definition Batch_insert (batch : nat) (position : nat) (node : Text)
    : M Document Text :=
  offset <- gets (fun d => attachOffset (content d) position) ;;
  Batch_apply batch (Insert position node) ;;
  ret (new_Text_at (data node) (textLinkHref node) (Some offset)).

(* ------------------------------------------------------------------ *)
(** ** The link command *)

(** [this]: the editor's document and the two observable fields. *)
Record LinkCommand : Type := new_LinkCommand {
  document : Document;
  value : option string;
  isEnabled : bool
}.

(** [const doc = this.editor.document]: run on the command's document. *)
Definition onDocument {A} (m : M Document A) : M LinkCommand A :=
  fun this =>
    let (a, d) := m (document this) in
    (a, new_LinkCommand d (value this) (isEnabled this)).

Definition set_value (v : option string) : M LinkCommand unit :=
  modify (fun this => new_LinkCommand (document this) v (isEnabled this)).

Definition set_isEnabled (b : bool) : M LinkCommand unit :=
  modify (fun this => new_LinkCommand (document this) (value this) b).

(** [_checkEnabled()] *)
Definition _checkEnabled : M LinkCommand bool :=
  selectedElement <- onDocument Selection_getSelectedElement ;;
  match selectedElement with
  | Some element =>
      if Element_is element "image" then ret false
      else onDocument Schema_checkAttributeInSelection
  | None => onDocument Schema_checkAttributeInSelection
  end.

(** [refresh()] *)
Definition refresh : M LinkCommand unit :=
  v <- onDocument Selection_getAttribute ;;
  set_value v ;;
  enabled <- _checkEnabled ;;
  set_isEnabled enabled.

(** [execute( href )] *)
Definition execute (href : string) : M LinkCommand unit :=
  onDocument (Document_enqueueChanges (
    batch <- Document_batch ;;
    isCollapsed <- Selection_isCollapsed ;;
    if isCollapsed then
      position <- Selection_getFirstPosition ;;
      hasLinkHref <- Selection_hasAttribute ;;
      if hasLinkHref then
        first <- Selection_getFirstPosition ;;
        linkHref <- Selection_getAttribute ;;
        linkRange <- findLinkRange_ first linkHref ;;
        Batch_setAttribute batch linkRange href ;;
        Selection_setRanges [linkRange]
      else
        let node := new_Text href (Some href) in
        node <- Batch_insert batch position node ;;
        Selection_setRanges [Range_createOn node]
    else
      ranges <- (selected <- Selection_getRanges ;;
                 Schema_getValidRanges selected) ;;
      forEach ranges (fun range => Batch_setAttribute batch range href)
  )).

End Interface.

(* ------------------------------------------------------------------ *)
(** ** An engine to run examples on *)

(** The attribute of a character, if the item is one. *)
Definition characterAttribute (it : option Item) : option (option string) :=
  match it with
  | Some (Character _ a) => Some a
  | _ => None
  end.

(** At a caret: the attributes of the text before it, and only without
    text before it those of the text after it. *)
Definition caretAttribute (items : list Item) (position : nat)
    : option string :=
  let before :=
    match position with
    | 0 => None
    | S p => characterAttribute (nth_error items p)
    end in
  match before with
  | Some a => a
  | None =>
      match characterAttribute (nth_error items position) with
      | Some a => a
      | None => None
      end
  end.

(** In a range: the attributes of the first text in it. *)
Fixpoint firstTextAttribute (items : list Item) : option string :=
  match items with
  | [] => None
  | Character _ a :: _ => a
  | _ :: rest => firstTextAttribute rest
  end.

Definition slice (r : Range) (items : list Item) : list Item :=
  firstn (end_ r - start r) (skipn (start r) items).

Definition exampleSelectionAttribute (items : list Item)
    (ranges : list Range) : option string :=
  match ranges with
  | [] => None
  | r :: _ =>
      if Range_isCollapsed r then caretAttribute items (start r)
      else firstTextAttribute (slice r items)
  end.

(** Whether there is a node at [offset] that the schema lets carry the
    attribute. *)
Definition nodeAllowedAt (schema : Schema) (items : list Item)
    (offset : nat) : bool :=
  match nth_error items offset with
  | Some ElementEnd | None => false
  | Some _ => legalAt schema items offset
  end.

Definition offsetsOf (r : Range) : list nat :=
  seq (start r) (end_ r - start r).

(** At a caret: may text there carry the attribute.  Otherwise: may any
    node in the ranges. *)
Definition exampleCheckAttributeInSelection (schema : Schema)
    (items : list Item) (ranges : list Range) : bool :=
  match ranges with
  | [r] =>
      if Range_isCollapsed r
      then check schema (ancestors items (start r)) "$text"
      else existsb (nodeAllowedAt schema items) (offsetsOf r)
  | _ =>
      existsb (fun r => existsb (nodeAllowedAt schema items) (offsetsOf r))
              ranges
  end.

Definition exampleEngine : Engine :=
  {| selectionAttribute := exampleSelectionAttribute;
     checkAttributeInSelection := exampleCheckAttributeInSelection |}.

(** Plain text and linked text. *)
Definition text (data : string) (linkHref : option string) : list Item :=
  Text_items (new_Text data linkHref).

(** A schema that allows the attribute on text only. *)
Definition textOnly : Schema :=
  new_Schema (fun _ n => String.eqb n "$text").


(** A schema that allows the attribute everywhere. *)
Definition everywhere : Schema := new_Schema (fun _ _ => true).

Definition caretAt (position : nat) : list Range :=
  [new_Range position position].

Definition command (items : list Item) (ranges : list Range)
    (schema : Schema) : LinkCommand :=
  new_LinkCommand (new_Document items ranges schema []) None false.

(* ------------------------------------------------------------------ *)
(** ** The three strategies of [execute] *)

Inductive Strategy : Type :=
| UpdateLink      (* collapsed, inside text with the attribute *)
| InsertLink      (* collapsed, not inside such text *)
| ApplyToRanges.  (* not collapsed *)

Section Strategies.

Context {engine : Engine}.

(** The branch [execute] takes on a document, by its own tests. *)
Definition strategyOf (d : Document) : Strategy :=
  if eval Selection_isCollapsed d then
    if eval Selection_hasAttribute d then UpdateLink else InsertLink
  else ApplyToRanges.

(** The range the expander finds at the caret for the selection's
    current value. *)
Definition linkRangeOf (d : Document) : Range :=
  findLinkRange (content d) (firstPositionOf (selection d))
                (selectionAttribute (content d) (selection d)).

(** The operations a call of [execute] asks its batch for. *)
Definition issued (href : string) (d : Document) : list Operation :=
  match strategyOf d with
  | UpdateLink => [SetAttribute (linkRangeOf d) href]
  | InsertLink =>
      [Insert (firstPositionOf (selection d)) (new_Text href (Some href))]
  | ApplyToRanges =>
      map (fun range => SetAttribute range href)
          (getValidRanges (schema d) (content d) (selection d))
  end.

(** The selection [execute] leaves behind. *)
Definition selectionAfter (href : string) (d : Document) : list Range :=
  match strategyOf d with
  | UpdateLink => [linkRangeOf d]
  | InsertLink =>
      let at_ := attachOffset (content d) (firstPositionOf (selection d)) in
      [new_Range at_ (at_ + String.length href)]
  | ApplyToRanges => selection d
  end.

(** Whether an operation is an insertion. *)
Definition isInsert (op : Operation) : bool :=
  match op with
  | Insert _ _ => true
  | SetAttribute _ _ => false
  end.

(** The operations the log gained since it was [before] events long. *)
Definition appliedSince (before : nat) (events : list Event)
    : list Operation :=
  flat_map (fun e => match e with Applied _ op => [op] | _ => [] end)
           (skipn before events).

(** Every range of the selection lies within the document. *)
Definition withinDocument (d : Document) : bool :=
  forallb (fun r => (start r <=? end_ r)
                    && (end_ r <=? List.length (content d)))
          (selection d).

End Strategies.

(** Example documents. *)

(** [ab] plain, [cdefg] linked to ["old"], [hi] plain; caret inside the
    link, which spans the offsets 2 to 7. *)
Definition insideLink : LinkCommand :=
  command (text "ab" None ++ text "cdefg" (Some "old") ++ text "hi" None)
          (caretAt 4) textOnly.


(** Plain text, caret at 4, the attribute allowed on text. *)
Definition plainCaret : LinkCommand :=
  command (text "abcdefgh" None) (caretAt 4) textOnly.

(** A selection from inside the text before an image to inside the text
    after it. *)
Definition aroundImage : LinkCommand :=
  command (text "ab" None ++ [ElementStart "image" None; ElementEnd]
           ++ text "cd" None)
          [new_Range 1 5] textOnly.

(** A schema that allows the attribute on text, except inside a
    caption. *)
Definition notInCaption : Schema :=
  new_Schema (fun inside n =>
    String.eqb n "$text" && negb (existsb (String.eqb "caption") inside)).

(** Text, an image with a caption, text; all of it selected. *)
Definition overCaption : LinkCommand :=
  command (text "ab" None
           ++ [ElementStart "image" None; ElementStart "caption" None]
           ++ text "cd" None ++ [ElementEnd; ElementEnd]
           ++ text "ef" None)
          [new_Range 0 10] notInCaption.

(** Exactly the image selected, under a schema that allows the
    attribute everywhere. *)
Definition imageSelected : LinkCommand :=
  command (text "ab" None ++ [ElementStart "image" None; ElementEnd]
           ++ text "cd" None)
          [new_Range 2 4] everywhere.

(* ------------------------------------------------------------------ *)
(** ** Further notions used to describe the command *)

(** An engine whose selection, when it is one range that is not
    collapsed and starts at a character, has that character's
    attribute: "the value of ['linkHref'] attribute if the start of a
    selection is located in a node with this attribute". *)
Definition readsRangeStart (engine : Engine) : Prop :=
  forall items r c a,
    start r < end_ r ->
    nth_error items (start r) = Some (Character c a) ->
    selectionAttribute items [r] = a.





(** Two ranges over plain text, the attribute allowed on text. *)
Definition twoRanges : LinkCommand :=
  command (text "abcdefgh" None) [new_Range 1 3; new_Range 5 7] textOnly.

(* ------------------------------------------------------------------ *)
(** * Facts about the content operations *)

Lemma Item_setAttribute_twice value it :
  Item_setAttribute value (Item_setAttribute value it)
  = Item_setAttribute value it.
Proof. destruct it; reflexivity. Qed.

Lemma Item_shape_setAttribute value it :
  Item_shape (Item_setAttribute value it) = Item_shape it.
Proof. destruct it; reflexivity. Qed.

Lemma Item_name_shape it : Item_name (Item_shape it) = Item_name it.
Proof. destruct it; reflexivity. Qed.

Lemma enter_shape inside it : enter inside (Item_shape it) = enter inside it.
Proof. destruct it; reflexivity. Qed.

Lemma Text_items_length node :
  List.length (Text_items node) = String.length (data node).
Proof.
  unfold Text_items. rewrite length_map.
  induction (data node) as [|c s IH]; simpl; congruence.
Qed.

Lemma Text_items_all node it :
  In it (Text_items node) -> exists c, it = Character c (textLinkHref node).
Proof.
  unfold Text_items. rewrite in_map_iff.
  intros [c [Hc _]]. exists c. congruence.
Qed.

(** [mapAt], item by item. *)
Lemma mapAt_nth keep f items : forall offset i,
  nth_error (mapAt keep f offset items) i
  = option_map (fun it => if keep (offset + i) then f it else it)
               (nth_error items i).
Proof.
  induction items as [|it rest IH]; intros offset i.
  - destruct i; reflexivity.
  - destruct i as [|i]; simpl.
    + rewrite Nat.add_0_r. reflexivity.
    + rewrite IH. rewrite Nat.add_succ_r. reflexivity.
Qed.

Lemma mapAt_length keep f items : forall offset,
  List.length (mapAt keep f offset items) = List.length items.
Proof.
  induction items as [|it rest IH]; intros offset; simpl; congruence.
Qed.

Lemma mapAt_shape keep value items : forall offset,
  map Item_shape (mapAt keep (Item_setAttribute value) offset items)
  = map Item_shape items.
Proof.
  induction items as [|it rest IH]; intros offset; simpl.
  - reflexivity.
  - rewrite IH. destruct (keep offset).
    + rewrite Item_shape_setAttribute. reflexivity.
    + reflexivity.
Qed.

(** Setting the attribute over a range, item by item. *)
Lemma setAttributeOn_nth range value items i :
  nth_error (setAttributeOn range value items) i
  = option_map (fun it => if Range_contains range i
                          then Item_setAttribute value it else it)
               (nth_error items i).
Proof. unfold setAttributeOn. rewrite mapAt_nth. reflexivity. Qed.

Lemma setAttributeOn_shape range value items :
  map Item_shape (setAttributeOn range value items) = map Item_shape items.
Proof. apply mapAt_shape. Qed.

(** Setting the attribute over several ranges in turn, item by item:
    an item gets the value when some range holds it. *)
Lemma setAttributes_nth value ranges : forall items i,
  nth_error (replay (map (fun r => SetAttribute r value) ranges) items) i
  = option_map (fun it => if inRanges ranges i
                          then Item_setAttribute value it else it)
               (nth_error items i).
Proof.
  induction ranges as [|r rest IH]; intros items i; simpl.
  - destruct (nth_error items i); reflexivity.
  - unfold replay in IH. rewrite IH, setAttributeOn_nth.
    destruct (nth_error items i) as [it|]; simpl; [|reflexivity].
    destruct (Range_contains r i); simpl.
    + destruct (inRanges rest i); [|reflexivity].
      rewrite Item_setAttribute_twice. reflexivity.
    + reflexivity.
Qed.

Lemma setAttributes_shape value ranges : forall items,
  map Item_shape (replay (map (fun r => SetAttribute r value) ranges) items)
  = map Item_shape items.
Proof.
  induction ranges as [|r rest IH]; intros items; simpl.
  - reflexivity.
  - unfold replay in IH. rewrite IH. apply setAttributeOn_shape.
Qed.

(** Setting the attribute where every item already has it changes
    nothing. *)
Lemma setAttributes_fixed value ranges items :
  (forall i it, inRanges ranges i = true -> nth_error items i = Some it ->
                Item_setAttribute value it = it) ->
  replay (map (fun r => SetAttribute r value) ranges) items = items.
Proof.
  intros Hfix. apply nth_error_ext. intros i.
  rewrite setAttributes_nth.
  destruct (nth_error items i) as [it|] eqn:Hit; simpl; [|reflexivity].
  destruct (inRanges ranges i) eqn:Hin; [|reflexivity].
  rewrite (Hfix i it Hin Hit). reflexivity.
Qed.

(** Insertion, item by item. *)
Lemma insertAt_nth position node items i :
  position <= List.length items ->
  nth_error (insertAt position node items) i
  = if i <? position then nth_error items i
    else if i <? position + String.length (data node)
         then nth_error (Text_items node) (i - position)
         else nth_error items (i - String.length (data node)).
Proof.
  intros Hpos. unfold insertAt.
  assert (Hlen : List.length (firstn position items) = position)
    by (rewrite length_firstn; lia).
  destruct (Nat.ltb_spec i position) as [Hlt|Hge].
  - rewrite nth_error_app1 by lia. rewrite nth_error_firstn.
    destruct (Nat.ltb_spec i position); [reflexivity|lia].
  - rewrite nth_error_app2 by lia. rewrite Hlen.
    destruct (Nat.ltb_spec i (position + String.length (data node))).
    + rewrite nth_error_app1 by (rewrite Text_items_length; lia).
      reflexivity.
    + rewrite nth_error_app2 by (rewrite Text_items_length; lia).
      rewrite Text_items_length, nth_error_skipn. f_equal. lia.
Qed.

Lemma insertAt_length position node items :
  List.length (insertAt position node items)
  = List.length items + String.length (data node).
Proof.
  unfold insertAt. rewrite !length_app, Text_items_length.
  rewrite <- (firstn_skipn position items) at 3.
  rewrite length_app. lia.
Qed.

(** An empty text node adds nothing. *)
Lemma insertAt_empty position node items :
  data node = "" -> insertAt position node items = items.
Proof.
  intros Hdata. unfold insertAt, Text_items. rewrite Hdata. simpl.
  apply firstn_skipn.
Qed.

(* ------------------------------------------------------------------ *)
(** * Facts about the schema's valid ranges *)

Lemma ancestors_shape items : forall offset,
  ancestors (map Item_shape items) offset = ancestors items offset.
Proof.
  unfold ancestors. intros offset. generalize (@nil string) as inside.
  revert offset.
  induction items as [|it rest IH]; intros offset inside.
  - destruct offset; reflexivity.
  - destruct offset as [|offset]; simpl.
    + reflexivity.
    + rewrite enter_shape. apply IH.
Qed.

(** What the schema allows depends on node names and nesting only. *)
Lemma legalAt_shape schema items offset :
  legalAt schema (map Item_shape items) offset = legalAt schema items offset.
Proof.
  unfold legalAt. rewrite nth_error_map, ancestors_shape.
  destruct (nth_error items offset) as [it|]; simpl.
  - rewrite Item_name_shape. reflexivity.
  - reflexivity.
Qed.

Lemma legalAt_same_shape schema items items' offset :
  map Item_shape items = map Item_shape items' ->
  legalAt schema items offset = legalAt schema items' offset.
Proof.
  intros Hshape.
  rewrite <- (legalAt_shape schema items), <- (legalAt_shape schema items').
  rewrite Hshape. reflexivity.
Qed.

Lemma walk_same_shape schema items items' :
  map Item_shape items = map Item_shape items' ->
  forall count offset from,
  walk schema items count offset from = walk schema items' count offset from.
Proof.
  intros Hshape. induction count as [|count IH]; intros offset from; simpl.
  - reflexivity.
  - rewrite (legalAt_same_shape schema items items' offset Hshape).
    rewrite !IH. reflexivity.
Qed.

Lemma getValidRanges_same_shape schema items items' ranges :
  map Item_shape items = map Item_shape items' ->
  getValidRanges schema items ranges = getValidRanges schema items' ranges.
Proof.
  intros Hshape. unfold getValidRanges.
  apply flat_map_ext. intros r. unfold getValidRange.
  apply walk_same_shape, Hshape.
Qed.

Lemma inRanges_app rs rs' i :
  inRanges (rs ++ rs') i = inRanges rs i || inRanges rs' i.
Proof. apply existsb_app. Qed.

(** The sub-ranges a walk produces hold exactly the legal offsets it
    passed, given that those it had gathered already are legal. *)
Lemma walk_inRanges schema items i : forall count offset from,
  from <= offset ->
  (forall k, from <= k < offset -> legalAt schema items k = true) ->
  inRanges (walk schema items count offset from) i
  = (from <=? i) && (i <? offset + count) && legalAt schema items i.
Proof.
  induction count as [|count IH]; intros offset from Hle Hlegal; simpl.
  - rewrite Nat.add_0_r.
    destruct (Nat.ltb_spec from offset); simpl.
    + unfold Range_contains; simpl. rewrite orb_false_r.
      destruct (Nat.leb_spec from i); simpl; [|reflexivity].
      destruct (Nat.ltb_spec i offset); simpl; [|reflexivity].
      symmetry. apply Hlegal. lia.
    + destruct (Nat.leb_spec from i); simpl; [|reflexivity].
      destruct (Nat.ltb_spec i offset); simpl; [lia|reflexivity].
  - destruct (legalAt schema items offset) eqn:Hoff.
    + rewrite IH.
      * replace (S offset + count) with (offset + S count) by lia.
        reflexivity.
      * lia.
      * intros k Hk. destruct (Nat.eq_dec k offset) as [->|Hne].
        -- exact Hoff.
        -- apply Hlegal. lia.
    + rewrite inRanges_app, IH; [|lia|intros k Hk; lia].
      replace (S offset + count) with (offset + S count) by lia.
      destruct (Nat.leb_spec from i) as [Hfi|Hfi];
        destruct (Nat.ltb_spec i (offset + S count)) as [Hie|Hie];
        destruct (Nat.leb_spec (S offset) i) as [Hoi|Hoi];
        destruct (Nat.ltb_spec from offset) as [Hfo|Hfo];
        simpl; unfold Range_contains; simpl;
        try (destruct (Nat.leb_spec from i); [|lia]);
        try (destruct (Nat.ltb_spec i offset); [|]);
        simpl; try lia; try reflexivity;
        try (symmetry; apply Hlegal; lia);
        try (assert (i = offset) by lia; subst i; rewrite Hoff;
             reflexivity).
Qed.

Lemma getValidRange_inRanges schema items range i :
  inRanges (getValidRange schema items range) i
  = Range_contains range i && legalAt schema items i.
Proof.
  unfold getValidRange. rewrite walk_inRanges; [|lia|intros k Hk; lia].
  unfold Range_contains. f_equal.
  destruct (Nat.leb_spec (start range) i); simpl; [|reflexivity].
  destruct (Nat.ltb_spec i (start range + (end_ range - start range)));
    destruct (Nat.ltb_spec i (end_ range)); try reflexivity; lia.
Qed.

(** The valid ranges hold exactly the offsets that are in the given
    ranges and legal. *)
Lemma getValidRanges_inRanges schema items ranges i :
  inRanges (getValidRanges schema items ranges) i
  = inRanges ranges i && legalAt schema items i.
Proof.
  unfold getValidRanges.
  induction ranges as [|r rest IH]; simpl.
  - reflexivity.
  - rewrite inRanges_app, IH, getValidRange_inRanges.
    destruct (Range_contains r i), (inRanges rest i),
      (legalAt schema items i); reflexivity.
Qed.

(* ------------------------------------------------------------------ *)
(** * Facts about the range expander *)

Lemma findBoundBack_le items value position :
  findBoundBack items value position <= position.
Proof.
  induction position as [|p IH]; simpl.
  - lia.
  - destruct (nth_error items p) as [it|]; [|lia].
    destruct (carries value it); lia.
Qed.

(** Everything between the backward bound and the position is text
    carrying the value. *)
Lemma findBoundBack_run items value position i :
  findBoundBack items value position <= i < position ->
  exists it, nth_error items i = Some it /\ carries value it = true.
Proof.
  induction position as [|p IH]; simpl; intros Hi.
  - lia.
  - destruct (nth_error items p) as [it|] eqn:Hit; [|lia].
    destruct (carries value it) eqn:Hc; [|lia].
    destruct (Nat.eq_dec i p) as [->|Hne].
    + exists it. split; assumption.
    + apply IH. lia.
Qed.

(** The node before the backward bound, if any, is not such text. *)
Lemma findBoundBack_stop items value position s it :
  findBoundBack items value position = S s ->
  nth_error items s = Some it -> carries value it = false.
Proof.
  induction position as [|p IH]; simpl; intros Hs Hit.
  - discriminate.
  - destruct (nth_error items p) as [it'|] eqn:Hit'.
    + destruct (carries value it') eqn:Hc.
      * apply IH; assumption.
      * injection Hs as <-. congruence.
    + injection Hs as <-. congruence.
Qed.

Lemma runLength_run value items i :
  i < runLength value items ->
  exists it, nth_error items i = Some it /\ carries value it = true.
Proof.
  revert i. induction items as [|it rest IH]; simpl; intros i Hi.
  - lia.
  - destruct (carries value it) eqn:Hc; [|lia].
    destruct i as [|i]; simpl.
    + exists it. split; [reflexivity|assumption].
    + apply IH. lia.
Qed.

Lemma runLength_stop value items it :
  nth_error items (runLength value items) = Some it ->
  carries value it = false.
Proof.
  induction items as [|it' rest IH]; simpl.
  - discriminate.
  - destruct (carries value it') eqn:Hc; simpl.
    + exact IH.
    + congruence.
Qed.

Lemma findBoundForward_ge items value position :
  position <= findBoundForward items value position.
Proof. unfold findBoundForward. lia. Qed.

Lemma findBoundForward_run items value position i :
  position <= i < findBoundForward items value position ->
  exists it, nth_error items i = Some it /\ carries value it = true.
Proof.
  unfold findBoundForward. intros Hi.
  destruct (runLength_run value (skipn position items) (i - position))
    as [it [Hit Hc]]; [lia|].
  exists it. split; [|assumption].
  rewrite nth_error_skipn in Hit. rewrite <- Hit. f_equal. lia.
Qed.

Lemma findBoundForward_stop items value position it :
  nth_error items (findBoundForward items value position) = Some it ->
  carries value it = false.
Proof.
  unfold findBoundForward. intros Hit.
  apply (runLength_stop value (skipn position items)).
  rewrite nth_error_skipn. exact Hit.
Qed.

(** The expanded range holds the position, consists of text carrying
    the value, and cannot be extended on either side. *)
Lemma findLinkRange_spec items position value :
  let r := findLinkRange items position value in
  start r <= position <= end_ r
  /\ (forall i, start r <= i < end_ r ->
       exists it, nth_error items i = Some it /\ carries value it = true)
  /\ (forall s it, start r = S s -> nth_error items s = Some it ->
       carries value it = false)
  /\ (forall it, nth_error items (end_ r) = Some it ->
       carries value it = false).
Proof.
  simpl. repeat split.
  - apply findBoundBack_le.
  - apply findBoundForward_ge.
  - intros i Hi. destruct (Nat.lt_ge_cases i position).
    + apply (findBoundBack_run items value position). lia.
    + apply (findBoundForward_run items value position). lia.
  - intros s it. apply findBoundBack_stop.
  - intros it. apply findBoundForward_stop.
Qed.

Lemma carries_inv value it :
  carries value it = true ->
  exists c v, it = Character c (Some v) /\ value = Some v.
Proof.
  destruct it as [c [v'|]| |]; destruct value as [v|]; simpl;
    try discriminate.
  intros H. apply String.eqb_eq in H. subst. eauto.
Qed.

(* ------------------------------------------------------------------ *)
(** * What one call of [execute] does *)

(** Unfolds the monad and the engine's interface. *)
Ltac run :=
  cbv [execute refresh _checkEnabled exec eval onDocument bind ret gets
       modify set_value set_isEnabled
       Document_enqueueChanges Document_batch
       Batch_setAttribute Batch_insert Batch_apply
       Selection_isCollapsed Selection_getFirstPosition
       Selection_getAttribute Selection_hasAttribute Selection_getRanges
       Selection_setRanges Selection_getSelectedElement
       Schema_checkAttributeInSelection Schema_getValidRanges
       findLinkRange_ record with_content with_selection
       applyOperation Range_createOn new_Text
       document value isEnabled content selection schema log
       data startOffset textLinkHref fst snd].

Section Command.

Context {engine : Engine}.

Lemma batchCount_app events events' :
  batchCount (events ++ events') = batchCount events + batchCount events'.
Proof.
  induction events as [|ev rest IH]; simpl; [reflexivity|].
  destruct ev; simpl; congruence.
Qed.

Lemma forEach_setAttribute batch href ranges : forall d,
  exec (forEach ranges (fun range => Batch_setAttribute batch range href)) d
  = new_Document
      (replay (map (fun r => SetAttribute r href) ranges) (content d))
      (selection d) (schema d)
      (log d ++ map (Applied batch)
                    (map (fun r => SetAttribute r href) ranges)).
Proof.
  induction ranges as [|r rest IH]; intros d.
  - destruct d. unfold exec; simpl. rewrite app_nil_r. reflexivity.
  - unfold exec in *. simpl. unfold bind. simpl.
    rewrite IH. simpl. rewrite <- app_assoc. reflexivity.
Qed.

(** The whole effect of a call on the document: the content is the old
    content with the issued operations replayed, and the log gains one
    change block holding one batch with those operations. *)
Lemma execute_document href this :
  let d := document this in
  document (exec (execute href) this)
  = new_Document
      (replay (issued href d) (content d))
      (selectionAfter href d)
      (schema d)
      (log d ++ ChangesStart :: BatchCreated (batchCount (log d))
             :: map (Applied (batchCount (log d))) (issued href d)
             ++ [ChangesDone]).
Proof.
  destruct this as [[c sel sch lg] v e].
  unfold issued, selectionAfter, strategyOf, linkRangeOf. run.
  rewrite batchCount_app, Nat.add_0_r.
  destruct (match sel with
            | [r] => Range_isCollapsed r
            | _ => false
            end) eqn:Hcollapsed.
  - destruct (selectionAttribute c sel) eqn:Hattr; cbn;
      rewrite ?Hattr, <- ?app_assoc; reflexivity.
  - pose proof (forEach_setAttribute (batchCount lg) href
      (getValidRanges sch c sel)
      (new_Document c sel sch
         ((lg ++ [ChangesStart]) ++ [BatchCreated (batchCount lg)])))
      as Hloop.
    unfold exec in Hloop. cbn in Hloop.
    change (fun range => Batch_setAttribute (batchCount lg) range href)
      with (fun range => Batch_apply (batchCount lg)
                           (SetAttribute range href)) in Hloop.
    destruct (forEach _ _ _) as [u d'] eqn:Hrun. cbn in Hloop.
    subst d'. cbn. rewrite <- ?app_assoc. reflexivity.
Qed.


Lemma execute_content href this :
  content (document (exec (execute href) this))
  = replay (issued href (document this)) (content (document this)).
Proof. rewrite execute_document. reflexivity. Qed.

Lemma execute_selection href this :
  selection (document (exec (execute href) this))
  = selectionAfter href (document this).
Proof. rewrite execute_document. reflexivity. Qed.

Lemma execute_schema href this :
  schema (document (exec (execute href) this)) = schema (document this).
Proof. rewrite execute_document. reflexivity. Qed.

(** A collapsed selection is one caret, at the first position. *)
Lemma collapsed_caret d :
  eval Selection_isCollapsed d = true ->
  selection d = caretAt (firstPositionOf (selection d)).
Proof.
  run. destruct d as [c sel sch lg]. cbn.
  destruct sel as [|[s e] [|r' rest]]; try discriminate.
  unfold Range_isCollapsed, caretAt. cbn. intros H.
  apply Nat.eqb_eq in H. subst. reflexivity.
Qed.

Lemma strategy_update d :
  eval Selection_isCollapsed d = true ->
  eval Selection_hasAttribute d = true ->
  strategyOf d = UpdateLink.
Proof. unfold strategyOf. intros -> ->. reflexivity. Qed.

Lemma strategy_insert d :
  eval Selection_isCollapsed d = true ->
  eval Selection_hasAttribute d = false ->
  strategyOf d = InsertLink.
Proof. unfold strategyOf. intros -> ->. reflexivity. Qed.

Lemma strategy_ranges d :
  eval Selection_isCollapsed d = false ->
  strategyOf d = ApplyToRanges.
Proof. unfold strategyOf. intros ->. reflexivity. Qed.

Lemma changeBlockCount_app events events' :
  changeBlockCount (events ++ events')
  = changeBlockCount events + changeBlockCount events'.
Proof.
  induction events as [|ev rest IH]; simpl; [reflexivity|].
  destruct ev; simpl; congruence.
Qed.

Lemma batchCount_applied batch ops :
  batchCount (map (Applied batch) ops ++ [ChangesDone]) = 0.
Proof. induction ops as [|op rest IH]; simpl; [reflexivity|exact IH]. Qed.

Lemma changeBlockCount_applied batch ops :
  changeBlockCount (map (Applied batch) ops ++ [ChangesDone]) = 0.
Proof. induction ops as [|op rest IH]; simpl; [reflexivity|exact IH]. Qed.

Lemma applied_operations batch ops :
  flat_map (fun e => match e with Applied _ op => [op] | _ => [] end)
           (map (Applied batch) ops ++ [ChangesDone])
  = ops.
Proof.
  induction ops as [|op rest IH]; simpl; [reflexivity|].
  rewrite IH. reflexivity.
Qed.

(** The operations a call adds to the log are the issued ones. *)
Lemma execute_applied href this :
  appliedSince (List.length (log (document this)))
               (log (document (exec (execute href) this)))
  = issued href (document this).
Proof.
  rewrite execute_document. cbn [log]. unfold appliedSince.
  rewrite skipn_app, Nat.sub_diag, skipn_all2 by lia.
  cbn [app skipn flat_map]. apply applied_operations.
Qed.

(** What a call issues and the selection it leaves depend on the
    content, the selection and the schema, not on the log. *)
Lemma issued_same href d1 d2 :
  content d1 = content d2 -> selection d1 = selection d2 ->
  schema d1 = schema d2 ->
  issued href d1 = issued href d2
  /\ selectionAfter href d1 = selectionAfter href d2.
Proof.
  destruct d1, d2. cbn. intros -> -> ->. split; reflexivity.
Qed.

Lemma strategy_of_range d r :
  selection d = [r] -> start r < end_ r -> strategyOf d = ApplyToRanges.
Proof.
  intros Hsel Hlt. apply strategy_ranges.
  destruct d as [c sel sch lg]. cbn in Hsel. subst sel. run.
  unfold Range_isCollapsed. apply Nat.eqb_neq. lia.
Qed.

Lemma setAttributeOn_empty range value items :
  end_ range <= start range -> setAttributeOn range value items = items.
Proof.
  intros Hempty. apply nth_error_ext. intros i.
  rewrite setAttributeOn_nth. unfold Range_contains.
  destruct (Nat.leb_spec (start range) i);
    destruct (Nat.ltb_spec i (end_ range)); try lia;
    destruct (nth_error items i); reflexivity.
Qed.

Lemma setAttributes_twice value ranges items :
  let sets := map (fun r => SetAttribute r value) ranges in
  replay sets (replay sets items) = replay sets items.
Proof.
  cbn zeta. apply setAttributes_fixed. intros i it Hin.
  rewrite setAttributes_nth, Hin.
  destruct (nth_error items i) as [it0|]; cbn; [|discriminate].
  intros Hit. injection Hit as <-. apply Item_setAttribute_twice.
Qed.

Lemma inRanges_single r i : inRanges [r] i = Range_contains r i.
Proof. cbn. apply orb_false_r. Qed.

(** A second pass over the valid part of ranges whose nodes all have
    the value already changes nothing. *)
Lemma setAttributes_valid_fixed value schema ranges items :
  (forall i it, inRanges ranges i = true -> nth_error items i = Some it ->
                Item_setAttribute value it = it) ->
  replay (map (fun r => SetAttribute r value)
              (getValidRanges schema items ranges)) items
  = items.
Proof.
  intros Hfix. apply setAttributes_fixed. intros i it Hin.
  rewrite getValidRanges_inRanges in Hin.
  apply andb_true_iff in Hin as [Hin _]. apply Hfix, Hin.
Qed.

Lemma strategy_inv d :
  match strategyOf d with
  | UpdateLink =>
      eval Selection_isCollapsed d = true
      /\ eval Selection_hasAttribute d = true
  | InsertLink =>
      eval Selection_isCollapsed d = true
      /\ eval Selection_hasAttribute d = false
  | ApplyToRanges => eval Selection_isCollapsed d = false
  end.
Proof.
  unfold strategyOf.
  destruct (eval Selection_isCollapsed d);
    [destruct (eval Selection_hasAttribute d)|]; auto.
Qed.

Lemma isCollapsed_selection d1 d2 :
  selection d1 = selection d2 ->
  eval Selection_isCollapsed d1 = eval Selection_isCollapsed d2.
Proof. run. intros ->. reflexivity. Qed.

(** After a first call, a second call with the same value leaves the
    content and the selection as the first call left them. *)
Lemma second_call href d d1 :
  withinDocument d = true ->
  content d1 = replay (issued href d) (content d) ->
  selection d1 = selectionAfter href d ->
  schema d1 = schema d ->
  replay (issued href d1) (content d1) = content d1
  /\ selectionAfter href d1 = selection d1.
Proof.
  intros Hwithin Hcontent Hselection Hschema.
  pose proof (strategy_inv d) as Hinv.
  unfold issued, selectionAfter in Hcontent, Hselection.
  destruct (strategyOf d) eqn:Hstrategy.
  - (* the first call updated a link *)
    destruct Hinv as [Hcollapsed Hhas].
    pose proof (collapsed_caret d Hcollapsed) as Hcaret.
    pose proof (findLinkRange_spec (content d)
      (firstPositionOf (selection d))
      (selectionAttribute (content d) (selection d))) as [Hspan _].
    fold (linkRangeOf d) in Hspan.
    cbn [replay fold_left applyOperation] in Hcontent.
    destruct (Nat.lt_ge_cases (start (linkRangeOf d)) (end_ (linkRangeOf d)))
      as [Hlt|Hge].
    + unfold issued, selectionAfter.
      rewrite (strategy_of_range d1 _ Hselection Hlt). split; [|reflexivity].
      apply setAttributes_valid_fixed. intros i it.
      rewrite Hselection, inRanges_single, Hcontent, setAttributeOn_nth.
      intros ->. destruct (nth_error (content d) i) as [it0|]; cbn;
        [|discriminate].
      intros Hit. injection Hit as <-. apply Item_setAttribute_twice.
    + rewrite setAttributeOn_empty in Hcontent by exact Hge.
      assert (Hsame : selection d1 = selection d).
      { rewrite Hselection, Hcaret. unfold caretAt.
        destruct (linkRangeOf d) as [s e]. cbn in *.
        replace s with (firstPositionOf (selection d)) by lia.
        replace e with (firstPositionOf (selection d)) by lia.
        reflexivity. }
      destruct (issued_same href d1 d Hcontent Hsame Hschema) as [-> ->].
      unfold issued, selectionAfter. rewrite Hstrategy.
      cbn [replay fold_left applyOperation].
      rewrite Hcontent, setAttributeOn_empty by exact Hge.
      split; [reflexivity|]. symmetry. exact Hselection.
  - (* the first call inserted a link *)
    destruct Hinv as [Hcollapsed Hhas].
    pose proof (collapsed_caret d Hcollapsed) as Hcaret.
    assert (Hinside : firstPositionOf (selection d) <= List.length (content d)).
    { unfold withinDocument in Hwithin. rewrite Hcaret in Hwithin.
      cbn in Hwithin. rewrite andb_true_r in Hwithin.
      apply andb_true_iff in Hwithin as [_ Hend].
      apply Nat.leb_le in Hend. exact Hend. }
    cbn [replay fold_left applyOperation] in Hcontent.
    cbn zeta in Hselection. unfold attachOffset in Hselection.
    rewrite Nat.min_l in Hselection by exact Hinside.
    destruct href as [|ch rest].
    + rewrite insertAt_empty in Hcontent by reflexivity.
      assert (Hsame : selection d1 = selection d).
      { rewrite Hselection, Hcaret. unfold caretAt. cbn.
        rewrite Nat.add_0_r. reflexivity. }
      destruct (issued_same "" d1 d Hcontent Hsame Hschema) as [-> ->].
      unfold issued, selectionAfter. rewrite Hstrategy.
      cbn [replay fold_left applyOperation].
      rewrite Hcontent, insertAt_empty by reflexivity.
      split; [reflexivity|]. rewrite Hsame, Hcaret. unfold caretAt.
      cbn. unfold attachOffset. rewrite Nat.min_l by exact Hinside.
      rewrite Nat.add_0_r. reflexivity.
    + unfold issued, selectionAfter.
      rewrite (strategy_of_range d1 _ Hselection) by (cbn; lia).
      split; [|reflexivity].
      apply setAttributes_valid_fixed. intros i it.
      rewrite Hselection, inRanges_single, Hcontent.
      rewrite insertAt_nth by exact Hinside.
      unfold Range_contains. cbn [start end_ data new_Text].
      destruct (Nat.leb_spec (firstPositionOf (selection d)) i);
        [|discriminate].
      destruct (Nat.ltb_spec i (firstPositionOf (selection d)
                                + String.length (String ch rest)));
        [|discriminate].
      destruct (Nat.ltb_spec i (firstPositionOf (selection d))); [lia|].
      intros _ Hit. apply nth_error_In, Text_items_all in Hit.
      destruct Hit as [c ->]. reflexivity.
  - (* the first call applied the attribute to ranges *)
    assert (Hstrategy1 : strategyOf d1 = ApplyToRanges).
    { apply strategy_ranges.
      rewrite (isCollapsed_selection d1 d Hselection). exact Hinv. }
    unfold issued, selectionAfter. rewrite Hstrategy1.
    split; [|reflexivity].
    rewrite Hselection, Hschema.
    rewrite (getValidRanges_same_shape (schema d) (content d1) (content d))
      by (rewrite Hcontent; apply setAttributes_shape).
    rewrite Hcontent. apply setAttributes_twice.
Qed.

End Command.

(* ------------------------------------------------------------------ *)
(** * The command's behaviour *)

Section Behaviour.

Context {engine : Engine}.

(** C2.  With a collapsed selection inside text carrying the attribute,
    [execute( href )] asks the range expander for the span around the
    caret with the selection's current value, sets the attribute to
    [href] on every character of that span and on nothing else, and
    makes that one range the selection.  The span holds the caret, all
    of it carried the current value before, the text is what it was,
    and the nodes next to the span do not carry the current value: the
    span is whole and is not split. *)
Theorem execute_updates_whole_link href this :
  let d := document this in
  let d' := document (exec (execute href) this) in
  let caret := firstPositionOf (selection d) in
  let current := eval Selection_getAttribute d in
  let span := findLinkRange (content d) caret current in
  eval Selection_isCollapsed d = true ->
  eval Selection_hasAttribute d = true ->
  selection d' = [span]
  /\ content d' = setAttributeOn span href (content d)
  /\ start span <= caret <= end_ span
  /\ (forall i, start span <= i < end_ span ->
      exists c old,
        current = Some old
        /\ nth_error (content d) i = Some (Character c (Some old))
        /\ nth_error (content d') i = Some (Character c (Some href)))
  /\ (forall i, ~ start span <= i < end_ span ->
      nth_error (content d') i = nth_error (content d) i)
  /\ (forall before it, start span = S before ->
      nth_error (content d) before = Some it -> carries current it = false)
  /\ (forall it, nth_error (content d) (end_ span) = Some it ->
      carries current it = false).
Proof.
  intros d d' caret current span Hcollapsed Hhas.
  pose proof (findLinkRange_spec (content d) caret current)
    as [Hcaret [Hrun [Hbefore Hafter]]].
  fold span in Hcaret, Hrun, Hbefore, Hafter.
  pose proof (strategy_update _ Hcollapsed Hhas) as Hstrategy.
  unfold d in Hstrategy.
  assert (Hcontent : content d' = setAttributeOn span href (content d)).
  { unfold d'. rewrite execute_content. unfold issued.
    rewrite Hstrategy. reflexivity. }
  split; [|split; [exact Hcontent|split; [exact Hcaret|split; [|split;
    [|split; [exact Hbefore|exact Hafter]]]]]].
  - unfold d'. rewrite execute_selection. unfold selectionAfter.
    rewrite Hstrategy. reflexivity.
  - intros i Hi. destruct (Hrun i Hi) as [it [Hit Hc]].
    destruct (carries_inv _ _ Hc) as [c [old [-> Hold]]].
    exists c, old. split; [exact Hold|]. split; [exact Hit|].
    rewrite Hcontent, setAttributeOn_nth, Hit. unfold Range_contains.
    destruct (Nat.leb_spec (start span) i); [|lia].
    destruct (Nat.ltb_spec i (end_ span)); [|lia].
    reflexivity.
  - intros i Hi. rewrite Hcontent, setAttributeOn_nth.
    unfold Range_contains.
    destruct (Nat.leb_spec (start span) i);
      destruct (Nat.ltb_spec i (end_ span)); try lia;
      destruct (nth_error (content d) i); reflexivity.
Qed.

(** C3.  With a collapsed selection not inside text carrying the
    attribute, [execute( href )] inserts at the caret a text node whose
    data is [href] and whose attribute is [href], moving nothing else,
    and makes the range that covers exactly the inserted node the
    selection.  This holds whatever the schema says about the place. *)
Theorem execute_inserts_link href this :
  let d := document this in
  let d' := document (exec (execute href) this) in
  let caret := firstPositionOf (selection d) in
  let inserted := new_Range caret (caret + String.length href) in
  eval Selection_isCollapsed d = true ->
  eval Selection_hasAttribute d = false ->
  caret <= List.length (content d) ->
  content d'
  = (firstn caret (content d) ++ text href (Some href)
     ++ skipn caret (content d))%list
  /\ selection d' = [inserted]
  /\ slice inserted (content d') = text href (Some href).
Proof.
  intros d d' caret inserted Hcollapsed Hhas Hcaret.
  pose proof (strategy_insert _ Hcollapsed Hhas) as Hstrategy.
  unfold d in Hstrategy.
  assert (Hcontent : content d'
    = (firstn caret (content d) ++ text href (Some href)
       ++ skipn caret (content d))%list).
  { unfold d'. rewrite execute_content. unfold issued.
    rewrite Hstrategy. reflexivity. }
  split; [exact Hcontent|split].
  - unfold d'. rewrite execute_selection. unfold selectionAfter.
    rewrite Hstrategy. cbn.
    unfold attachOffset. fold caret. rewrite Nat.min_l by exact Hcaret.
    reflexivity.
  - rewrite Hcontent. unfold slice, inserted. cbn [start end_].
    replace (caret + String.length href - caret) with (String.length href)
      by lia.
    assert (Hlen : List.length (firstn caret (content d)) = caret)
      by (rewrite length_firstn; lia).
    assert (Htext : List.length (text href (Some href)) = String.length href)
      by apply (Text_items_length (new_Text href (Some href))).
    rewrite skipn_app, Hlen, Nat.sub_diag, skipn_all2 by lia.
    cbn [app skipn].
    rewrite firstn_app, Htext, Nat.sub_diag, firstn_all2 by lia.
    cbn [firstn]. apply app_nil_r.
Qed.

(** C4.  With a selection that is not collapsed, [execute( href )] sets
    the attribute on exactly the ranges the schema computes from the
    selection's ranges.  Item by item: a node gets the value when it
    lies in a range of the selection and the schema allows the
    attribute on it, and every other node is as it was.  The selection
    is as it was. *)
Theorem execute_applies_to_valid_ranges href this :
  let d := document this in
  let d' := document (exec (execute href) this) in
  eval Selection_isCollapsed d = false ->
  selection d' = selection d
  /\ content d'
     = replay (map (fun range => SetAttribute range href)
                   (getValidRanges (schema d) (content d) (selection d)))
              (content d)
  /\ (forall i,
      nth_error (content d') i
      = option_map
          (fun it => if inRanges (selection d) i
                        && legalAt (schema d) (content d) i
                     then Item_setAttribute href it else it)
          (nth_error (content d) i)).
Proof.
  intros d d' Hcollapsed.
  pose proof (strategy_ranges _ Hcollapsed) as Hstrategy.
  unfold d in Hstrategy.
  assert (Hcontent : content d'
    = replay (map (fun range => SetAttribute range href)
                  (getValidRanges (schema d) (content d) (selection d)))
             (content d)).
  { unfold d'. rewrite execute_content. unfold issued.
    rewrite Hstrategy. reflexivity. }
  split; [|split; [exact Hcontent|]].
  - unfold d'. rewrite execute_selection. unfold selectionAfter.
    rewrite Hstrategy. reflexivity.
  - intros i. rewrite Hcontent, setAttributes_nth.
    rewrite getValidRanges_inRanges. reflexivity.
Qed.

(** C5.  [_checkEnabled()] answers [false] whenever the selection
    resolves to one selected element that is an image, whatever the
    schema says, and in every other case answers what the schema's
    [checkAttributeInSelection] says.  It changes nothing. *)
Theorem checkEnabled_image_or_schema this :
  let d := document this in
  let selected := getSelectedElement (content d) (selection d) in
  let answer :=
    checkAttributeInSelection (schema d) (content d) (selection d) in
  ((exists element, selected = Some element /\ name element = "image") ->
   eval _checkEnabled this = false)
  /\ (~ (exists element, selected = Some element /\ name element = "image") ->
      eval _checkEnabled this = answer)
  /\ exec _checkEnabled this = this.
Proof.
  intros d selected answer. unfold selected, answer, d.
  destruct this as [[c sel sch lg] v e]. run.
  destruct (getSelectedElement c sel) as [[n a]|] eqn:Hsel; cbn.
  - unfold Element_is. cbn.
    destruct (String.eqb_spec n "image") as [->|Hne]; cbn.
    + repeat split. intros Hno. exfalso. apply Hno.
      exists (new_Element "image" a). split; reflexivity.
    + repeat split. intros [element [Heq Hname]].
      injection Heq as <-. cbn in Hname. contradiction.
  - repeat split. intros [element [Heq _]]. discriminate.
Qed.

(** C6.  Every call of [execute( href )] opens exactly one change
    block, creates exactly one batch inside it, and applies all its
    operations through that batch inside that block: the log gains the
    block's start, the batch's creation, the operations of that batch,
    and the block's end, in this order and nothing else, and the new
    content is the old content with those operations replayed. *)
Theorem execute_one_batch href this :
  let d := document this in
  let d' := document (exec (execute href) this) in
  let batch := batchCount (log d) in
  exists ops,
    log d' = (log d ++ [ChangesStart; BatchCreated batch]
              ++ map (Applied batch) ops ++ [ChangesDone])%list
    /\ content d' = replay ops (content d)
    /\ batchCount (log d') = S (batchCount (log d))
    /\ changeBlockCount (log d') = S (changeBlockCount (log d)).
Proof.
  intros d d' batch. exists (issued href d).
  unfold d', batch, d. rewrite execute_document. cbn [log content].
  repeat split.
  - rewrite batchCount_app. cbn [batchCount].
    rewrite batchCount_applied. lia.
  - rewrite changeBlockCount_app. cbn [changeBlockCount].
    rewrite changeBlockCount_applied. lia.
Qed.

(** C9.  [refresh()] sets [value] to the selection's attribute,
    [undefined] when absent, sets [isEnabled] to what [_checkEnabled()]
    answers, and does nothing else: the document, with its content, its
    selection and its log of change blocks and batches, is as it was. *)
Theorem refresh_observes this :
  let this' := exec refresh this in
  value this' = eval Selection_getAttribute (document this)
  /\ isEnabled this' = eval _checkEnabled this
  /\ document this' = document this.
Proof.
  destruct this as [[c sel sch lg] v e]. run.
  destruct (getSelectedElement c sel) as [element|]; cbn.
  - destruct (Element_is element "image"); cbn; repeat split.
  - repeat split.
Qed.

(** C10.  When [execute( href )] updates a link or applies the
    attribute to ranges, it applies no insertion, and what is left of
    the content without the attribute, its nodes, their nesting and the
    text, is as it was.  When it inserts a link, the one operation it
    applies is the insertion of the text node at the caret. *)
Theorem execute_inserts_only_when_inserting href this :
  let d := document this in
  let d' := document (exec (execute href) this) in
  let applied := appliedSince (List.length (log d)) (log d') in
  (strategyOf d = UpdateLink \/ strategyOf d = ApplyToRanges ->
   existsb isInsert applied = false
   /\ map Item_shape (content d') = map Item_shape (content d)
   /\ List.length (content d') = List.length (content d))
  /\ (strategyOf d = InsertLink ->
      applied = [Insert (firstPositionOf (selection d))
                        (new_Text href (Some href))]
      /\ List.length (content d')
         = List.length (content d) + String.length href).
Proof.
  intros d d' applied. unfold applied, d', d.
  rewrite execute_applied, execute_content. unfold issued.
  split.
  - intros [Hstrategy | Hstrategy]; rewrite Hstrategy.
    + split; [reflexivity|]. cbn [replay fold_left applyOperation].
      split; [apply setAttributeOn_shape|apply mapAt_length].
    + split; [|split].
      * induction (getValidRanges _ _ _) as [|r rest IH];
          [reflexivity|exact IH].
      * apply setAttributes_shape.
      * rewrite <- (length_map Item_shape), setAttributes_shape.
        apply length_map.
  - intros ->. split; [reflexivity|]. cbn [replay fold_left applyOperation].
    rewrite insertAt_length. reflexivity.
Qed.

(** C7.  Calling [execute( href )] twice in a row leaves the same
    content and the same selection as calling it once, whatever the
    strategy of the first call, for every document whose selection lies
    within it. *)
Theorem execute_twice href this :
  let once := exec (execute href) this in
  let twice := exec (execute href) once in
  withinDocument (document this) = true ->
  content (document twice) = content (document once)
  /\ selection (document twice) = selection (document once).
Proof.
  intros once twice Hwithin. unfold twice.
  rewrite execute_content, execute_selection.
  apply (second_call href (document this)).
  - exact Hwithin.
  - apply execute_content.
  - apply execute_selection.
  - apply execute_schema.
Qed.

End Behaviour.

(* ------------------------------------------------------------------ *)
(** * The command on the example documents *)

(** The caret is inside text linked to ["old"] that spans 2 to 7;
    [execute( "new" )] relinks all of it and selects it. *)
Example execute_inside_link :
  let d' := document (exec (execute (engine := exampleEngine) "new")
                           insideLink) in
  content d'
  = (text "ab" None ++ text "cdefg" (Some "new") ++ text "hi" None)%list
  /\ selection d' = [new_Range 2 7].
Proof. split; reflexivity. Qed.

(** The caret is at 4 in plain text; [execute( "href1" )] inserts the
    text [href1] linked to ["href1"] at 4 and selects it. *)
Example execute_at_plain_caret :
  let d' := document (exec (execute (engine := exampleEngine) "href1")
                           plainCaret) in
  content d'
  = (text "abcd" None ++ text "href1" (Some "href1")
     ++ text "efgh" None)%list
  /\ selection d' = [new_Range 4 9].
Proof. split; reflexivity. Qed.

(** The selection runs over an image the attribute is not allowed on;
    the text on both sides gets the value, the image does not, and the
    selection stays. *)
Example execute_around_image :
  let d' := document (exec (execute (engine := exampleEngine) "u")
                           aroundImage) in
  content d'
  = (text "a" None ++ text "b" (Some "u")
     ++ [ElementStart "image" None; ElementEnd]
     ++ text "c" (Some "u") ++ text "d" None)%list
  /\ selection d' = [new_Range 1 5].
Proof. split; reflexivity. Qed.

(** The selection runs over an image with a caption; text inside the
    caption may not carry the attribute and is left alone.  The second
    valid range starts right after that text, before the elements end. *)
Example execute_over_caption :
  let d' := document (exec (execute (engine := exampleEngine) "u")
                           overCaption) in
  content d'
  = (text "ab" (Some "u")
     ++ [ElementStart "image" None; ElementStart "caption" None]
     ++ text "cd" None ++ [ElementEnd; ElementEnd]
     ++ text "ef" (Some "u"))%list
  /\ appliedSince 0 (log d')
     = [SetAttribute (new_Range 0 2) "u"; SetAttribute (new_Range 6 10) "u"].
Proof. split; reflexivity. Qed.

(** With exactly the image selected the command is disabled although
    the schema allows the attribute. *)
Example checkEnabled_image_selected :
  eval (_checkEnabled (engine := exampleEngine)) imageSelected = false
  /\ checkAttributeInSelection (Engine := exampleEngine)
       (schema (document imageSelected))
       (content (document imageSelected))
       (selection (document imageSelected)) = true.
Proof. split; reflexivity. Qed.

(* ------------------------------------------------------------------ *)
(** * The theorems at the example documents *)

(** The update of a whole link, at the caret inside the link. *)
Lemma execute_updates_whole_link_witness :
  eval Selection_isCollapsed (document insideLink) = true
  /\ eval (Selection_hasAttribute (engine := exampleEngine))
          (document insideLink) = true
  /\ selection (document (exec (execute (engine := exampleEngine) "new")
                               insideLink))
     = [new_Range 2 7].
Proof.
  split; [reflexivity|]. split; [reflexivity|].
  apply (execute_updates_whole_link
           (engine := exampleEngine) "new" insideLink eq_refl eq_refl).
Defined.

(** The insertion of a link, at the caret in plain text. *)
Lemma execute_inserts_link_witness :
  eval Selection_isCollapsed (document plainCaret) = true
  /\ eval (Selection_hasAttribute (engine := exampleEngine))
          (document plainCaret) = false
  /\ 4 <= List.length (content (document plainCaret))
  /\ selection (document (exec (execute (engine := exampleEngine) "href1")
                               plainCaret))
     = [new_Range 4 9].
Proof.
  assert (Hin : 4 <= List.length (content (document plainCaret)))
    by (cbn; lia).
  split; [reflexivity|]. split; [reflexivity|]. split; [exact Hin|].
  apply (execute_inserts_link
           (engine := exampleEngine) "href1" plainCaret
           eq_refl eq_refl Hin).
Defined.

(** The attribute on the valid ranges, at the selection over the
    image. *)
Lemma execute_applies_to_valid_ranges_witness :
  eval Selection_isCollapsed (document aroundImage) = false
  /\ selection (document (exec (execute (engine := exampleEngine) "u")
                               aroundImage))
     = [new_Range 1 5].
Proof.
  split; [reflexivity|].
  apply (execute_applies_to_valid_ranges
           (engine := exampleEngine) "u" aroundImage eq_refl).
Defined.

(** The enablement with the image selected and with a selection that
    is no single element. *)
Lemma checkEnabled_image_or_schema_witness :
  eval (_checkEnabled (engine := exampleEngine)) imageSelected = false
  /\ eval (_checkEnabled (engine := exampleEngine)) aroundImage = true.
Proof.
  split.
  - apply (checkEnabled_image_or_schema
             (engine := exampleEngine) imageSelected).
    exists (new_Element "image" None). split; reflexivity.
  - apply (proj1 (proj2 (checkEnabled_image_or_schema
                           (engine := exampleEngine) aroundImage))).
    intros [element [Hsel _]]. discriminate.
Defined.

(** Two calls in a row, at the caret in plain text. *)
Lemma execute_twice_witness :
  withinDocument (document plainCaret) = true
  /\ content (document
       (exec (execute (engine := exampleEngine) "href1")
             (exec (execute (engine := exampleEngine) "href1") plainCaret)))
     = content (document
         (exec (execute (engine := exampleEngine) "href1") plainCaret)).
Proof.
  split; [reflexivity|].
  apply (execute_twice (engine := exampleEngine) "href1" plainCaret eq_refl).
Defined.

(** No insertion when updating, one when inserting: at the caret inside
    the link and at the caret in plain text. *)
Lemma execute_inserts_only_when_inserting_witness :
  strategyOf (engine := exampleEngine) (document insideLink) = UpdateLink
  /\ map Item_shape
       (content (document (exec (execute (engine := exampleEngine) "new")
                                insideLink)))
     = map Item_shape (content (document insideLink))
  /\ strategyOf (engine := exampleEngine) (document plainCaret) = InsertLink
  /\ List.length
       (content (document (exec (execute (engine := exampleEngine) "href1")
                                plainCaret)))
     = 8 + 5.
Proof.
  split; [reflexivity|]. split.
  - apply (proj1 (execute_inserts_only_when_inserting
                    (engine := exampleEngine) "new" insideLink)).
    left. reflexivity.
  - split; [reflexivity|].
    apply (proj2 (execute_inserts_only_when_inserting
                    (engine := exampleEngine) "href1" plainCaret)).
    reflexivity.
Defined.

(* ------------------------------------------------------------------ *)
(** * More on what the command does and does not do *)

Section Further.

Context {engine : Engine}.

Lemma refresh_value this :
  value (exec refresh this)
  = selectionAttribute (content (document this)) (selection (document this)).
Proof.
  destruct this as [[c sel sch lg] v e]. run.
  destruct (getSelectedElement c sel) as [element|]; cbn;
    [destruct (Element_is element "image")|]; reflexivity.
Qed.

(** The selection resolves to an element only when it is one range that
    starts at that element's start and is not collapsed. *)
Lemma getSelectedElement_inv items ranges element :
  getSelectedElement items ranges = Some element ->
  exists r,
    ranges = [r]
    /\ nth_error items (start r)
       = Some (ElementStart (name element) (elementLinkHref element))
    /\ start r < end_ r.
Proof.
  unfold getSelectedElement.
  destruct ranges as [|r [|r' rest]]; try discriminate.
  destruct (skipn (start r) items) as [|[c a|n a|] inner] eqn:Hskip;
    try discriminate.
  destruct (elementSize 0 inner) as [size|]; [|discriminate].
  destruct (Nat.eqb_spec (end_ r) (start r + 1 + size)) as [Hend|];
    [|discriminate].
  intros Hsome. injection Hsome as <-. exists r. cbn.
  split; [reflexivity|]. split; [|lia].
  rewrite <- (Nat.add_0_r (start r)), <- nth_error_skipn, Hskip.
  reflexivity.
Qed.

Lemma getSelectedElement_collapsed d :
  eval Selection_isCollapsed d = true ->
  getSelectedElement (content d) (selection d) = None.
Proof.
  intros Hcollapsed.
  destruct (getSelectedElement (content d) (selection d)) as [element|]
    eqn:Hsel; [|reflexivity].
  destruct (getSelectedElement_inv _ _ _ Hsel) as [r [Hr [_ Hlt]]].
  rewrite (collapsed_caret d Hcollapsed) in Hr. unfold caretAt in Hr.
  injection Hr as <-. cbn in Hlt. lia.
Qed.

(** [refresh()] settles: a second [refresh()] changes nothing, and what
    it leaves depends on the document only, not on what [value] and
    [isEnabled] were before. *)
Theorem refresh_settles this v e :
  exec refresh (exec refresh this) = exec refresh this
  /\ exec refresh (new_LinkCommand (document this) v e) = exec refresh this.
Proof.
  destruct this as [[c sel sch lg] v0 e0]. run.
  destruct (getSelectedElement c sel) as [element|] eqn:Hsel; cbn.
  - destruct (Element_is element "image") eqn:His; cbn.
    + rewrite ?Hsel; cbn; rewrite ?His; cbn. split; reflexivity.
    + rewrite ?Hsel; cbn; rewrite ?His; cbn. split; reflexivity.
  - rewrite ?Hsel; cbn. split; reflexivity.
Qed.

(** The image test of [_checkEnabled()] applies to one selected element
    only: with a caret, and with a selection of no range or of several
    ranges, the answer is the schema's. *)
Theorem checkEnabled_without_selected_element this :
  let d := document this in
  eval Selection_isCollapsed d = true \/ List.length (selection d) <> 1 ->
  eval _checkEnabled this
  = checkAttributeInSelection (schema d) (content d) (selection d).
Proof.
  intros d Hshape.
  assert (Hnone : getSelectedElement (content d) (selection d) = None).
  { destruct Hshape as [Hcollapsed | Hcount].
    - apply getSelectedElement_collapsed, Hcollapsed.
    - destruct (getSelectedElement (content d) (selection d)) as [element|]
        eqn:Hsel; [|reflexivity].
      destruct (getSelectedElement_inv _ _ _ Hsel) as [r [Hr _]].
      rewrite Hr in Hcount. cbn in Hcount. contradiction. }
  unfold d in *. destruct this as [[c sel sch lg] v e].
  revert Hnone. run. intros ->. reflexivity.
Qed.

Lemma execute_log href this :
  let d := document this in
  log (document (exec (execute href) this))
  = (log d ++ [ChangesStart; BatchCreated (batchCount (log d))]
     ++ map (Applied (batchCount (log d))) (issued href d)
     ++ [ChangesDone])%list.
Proof. cbn zeta. rewrite execute_document. reflexivity. Qed.

Lemma execute_batchCount href this :
  batchCount (log (document (exec (execute href) this)))
  = S (batchCount (log (document this))).
Proof.
  rewrite execute_log. cbn zeta. rewrite batchCount_app. cbn [app batchCount].
  rewrite batchCount_applied. lia.
Qed.

Lemma Item_setAttribute_over value value' it :
  Item_setAttribute value' (Item_setAttribute value it)
  = Item_setAttribute value' it.
Proof. destruct it; reflexivity. Qed.

(** With a selection that is not collapsed the last value wins:
    [execute( href2 )] after [execute( href1 )] leaves the content and
    the selection that [execute( href2 )] alone leaves. *)
Theorem execute_last_value_wins href1 href2 this :
  let both := document (exec (execute href2) (exec (execute href1) this)) in
  let last := document (exec (execute href2) this) in
  eval Selection_isCollapsed (document this) = false ->
  content both = content last /\ selection both = selection last.
Proof.
  intros both last Hcollapsed.
  pose proof (strategy_ranges _ Hcollapsed) as Hstrategy.
  set (once := exec (execute href1) this).
  assert (Hcontent1 : content (document once)
    = replay (map (fun r => SetAttribute r href1)
                  (getValidRanges (schema (document this))
                     (content (document this))
                     (selection (document this))))
             (content (document this))).
  { unfold once. rewrite execute_content. unfold issued.
    rewrite Hstrategy. reflexivity. }
  assert (Hselection1 : selection (document once)
                        = selection (document this)).
  { unfold once. rewrite execute_selection. unfold selectionAfter.
    rewrite Hstrategy. reflexivity. }
  assert (Hschema1 : schema (document once) = schema (document this))
    by apply execute_schema.
  assert (Hstrategy1 : strategyOf (document once) = ApplyToRanges).
  { apply strategy_ranges.
    rewrite (isCollapsed_selection _ _ Hselection1). exact Hcollapsed. }
  unfold both, last. fold once.
  rewrite !execute_content, !execute_selection.
  unfold issued, selectionAfter. rewrite Hstrategy, Hstrategy1.
  split; [|exact Hselection1].
  rewrite Hselection1, Hschema1.
  rewrite (getValidRanges_same_shape (schema (document this))
             (content (document once)) (content (document this)))
    by (rewrite Hcontent1; apply setAttributes_shape).
  apply nth_error_ext. intros i.
  rewrite !setAttributes_nth, Hcontent1, setAttributes_nth.
  destruct (nth_error (content (document this)) i) as [it|];
    [|reflexivity].
  cbn [option_map].
  destruct (inRanges _ i); [|reflexivity].
  rewrite Item_setAttribute_over. reflexivity.
Qed.

(** Every call is a batch of its own: two calls in a row leave two
    change blocks one after the other, each with its own batch, and
    the operations of either call are applied through the batch of that
    call. *)
Theorem execute_twice_two_batches href1 href2 this :
  let d := document this in
  let once := exec (execute href1) this in
  let twice := exec (execute href2) once in
  let batch := batchCount (log d) in
  log (document twice)
  = (log d
     ++ ([ChangesStart; BatchCreated batch]
         ++ map (Applied batch) (appliedSince (List.length (log d))
                                              (log (document once)))
         ++ [ChangesDone])
     ++ ([ChangesStart; BatchCreated (S batch)]
         ++ map (Applied (S batch))
                (appliedSince (List.length (log (document once)))
                              (log (document twice)))
         ++ [ChangesDone]))%list.
Proof.
  intros d once twice batch. unfold twice, once, batch, d.
  rewrite !execute_applied, execute_log. cbn zeta.
  rewrite execute_batchCount, execute_log. cbn zeta.
  rewrite <- !app_assoc. reflexivity.
Qed.

Lemma runLength_le value items : runLength value items <= List.length items.
Proof.
  induction items as [|it rest IH]; cbn; [lia|].
  destruct (carries value it); lia.
Qed.

Lemma findBoundForward_within items value position :
  position <= List.length items ->
  findBoundForward items value position <= List.length items.
Proof.
  intros Hposition. unfold findBoundForward.
  pose proof (runLength_le value (skipn position items)) as Hrun.
  rewrite length_skipn in Hrun. lia.
Qed.

Lemma replay_setAttributes_length value ranges items :
  List.length (replay (map (fun r => SetAttribute r value) ranges) items)
  = List.length items.
Proof.
  rewrite <- (length_map Item_shape), setAttributes_shape.
  apply length_map.
Qed.

(** [execute( href )] keeps the selection within the document: when
    every range of the selection lay within the content before the
    call, every range of the selection it leaves lies within the
    content it leaves. *)
Theorem execute_keeps_selection_within href this :
  withinDocument (document this) = true ->
  withinDocument (document (exec (execute href) this)) = true.
Proof.
  intros Hwithin. unfold withinDocument in *.
  rewrite execute_content, execute_selection.
  pose proof (strategy_inv (document this)) as Hinv.
  unfold issued, selectionAfter.
  destruct (strategyOf (document this)) eqn:Hstrategy.
  - destruct Hinv as [Hcollapsed _].
    rewrite (collapsed_caret _ Hcollapsed) in Hwithin. cbn in Hwithin.
    rewrite andb_true_r in Hwithin.
    apply andb_true_iff in Hwithin as [_ Hcaret]. apply Nat.leb_le in Hcaret.
    cbn [replay fold_left applyOperation forallb].
    unfold setAttributeOn. rewrite mapAt_length, andb_true_r.
    unfold linkRangeOf, findLinkRange. cbn [start end_].
    apply andb_true_iff. split; apply Nat.leb_le.
    + pose proof (findBoundBack_le (content (document this))
        (selectionAttribute (content (document this))
                            (selection (document this)))
        (firstPositionOf (selection (document this)))).
      pose proof (findBoundForward_ge (content (document this))
        (selectionAttribute (content (document this))
                            (selection (document this)))
        (firstPositionOf (selection (document this)))).
      lia.
    + apply findBoundForward_within, Hcaret.
  - cbn [replay fold_left applyOperation forallb start end_].
    rewrite insertAt_length, andb_true_r. cbn [data new_Text].
    unfold attachOffset.
    apply andb_true_iff. split; apply Nat.leb_le; lia.
  - rewrite replay_setAttributes_length. exact Hwithin.
Qed.

Lemma fold_enter_characters a chars : forall inside,
  fold_left enter (map (fun c => Character c a) chars) inside = inside.
Proof.
  induction chars as [|c rest IH]; intros inside; cbn; [reflexivity|].
  apply IH.
Qed.

(** The characters of an inserted text node are inside the elements the
    caret was inside. *)
Lemma ancestors_inserted position node items i :
  position <= List.length items ->
  position <= i < position + String.length (data node) ->
  ancestors (insertAt position node items) i = ancestors items position.
Proof.
  intros Hposition Hi. unfold ancestors, insertAt.
  assert (Hlen : List.length (firstn position items) = position)
    by (rewrite length_firstn; lia).
  rewrite firstn_app, Hlen.
  rewrite (firstn_all2 (n := i)) by lia.
  rewrite firstn_app, fold_left_app.
  rewrite (proj2 (Nat.sub_0_le (i - position)
                    (List.length (Text_items node))))
    by (rewrite Text_items_length; lia).
  cbn [firstn]. rewrite app_nil_r.
  unfold Text_items. rewrite firstn_map. apply fold_enter_characters.
Qed.

Lemma Text_items_nth content' a k :
  nth_error (Text_items (new_Text content' a)) k
  = option_map (fun c => Character c a)
               (nth_error (list_ascii_of_string content') k).
Proof. unfold Text_items. cbn. apply nth_error_map. Qed.

(** The inserted text mirrors the first value only: after
    [execute( href1 )] inserted the text [href1] at a caret where the
    schema allows text to carry the attribute, [execute( href2 )] sets
    the attribute of that text to [href2] and leaves the text [href1],
    selected as before. *)
Theorem execute_retargets_inserted href1 href2 this :
  let d := document this in
  let caret := firstPositionOf (selection d) in
  let both := document (exec (execute href2) (exec (execute href1) this)) in
  eval Selection_isCollapsed d = true ->
  eval Selection_hasAttribute d = false ->
  caret <= List.length (content d) ->
  href1 <> "" ->
  check (schema d) (ancestors (content d) caret) "$text" = true ->
  content both
  = (firstn caret (content d) ++ text href1 (Some href2)
     ++ skipn caret (content d))%list
  /\ selection both = [new_Range caret (caret + String.length href1)].
Proof.
  intros d caret both Hcollapsed Hhas Hcaret Hhref Hcheck.
  pose proof (strategy_insert _ Hcollapsed Hhas) as Hstrategy.
  assert (Hlen : 0 < String.length href1)
    by (destruct href1; [congruence|cbn; lia]).
  set (once := exec (execute href1) this).
  set (inserted := new_Range caret (caret + String.length href1)).
  assert (Hcontent1 : content (document once)
    = insertAt caret (new_Text href1 (Some href1)) (content d)).
  { unfold once. rewrite execute_content. unfold issued.
    unfold d in Hstrategy. rewrite Hstrategy. reflexivity. }
  assert (Hselection1 : selection (document once) = [inserted]).
  { unfold once. rewrite execute_selection. unfold selectionAfter.
    unfold d in Hstrategy. rewrite Hstrategy. cbn zeta.
    unfold attachOffset. fold d. fold caret.
    rewrite Nat.min_l by exact Hcaret. reflexivity. }
  assert (Hschema1 : schema (document once) = schema d)
    by apply execute_schema.
  assert (Hstrategy1 : strategyOf (document once) = ApplyToRanges)
    by (apply (strategy_of_range _ inserted Hselection1); cbn; lia).
  unfold both. fold once.
  rewrite execute_content, execute_selection.
  unfold issued, selectionAfter. rewrite Hstrategy1.
  split; [|exact Hselection1].
  change (firstn caret (content d) ++ text href1 (Some href2)
          ++ skipn caret (content d))%list
    with (insertAt caret (new_Text href1 (Some href2)) (content d)).
  apply nth_error_ext. intros i.
  rewrite setAttributes_nth, getValidRanges_inRanges.
  rewrite Hselection1, inRanges_single, Hschema1, Hcontent1.
  rewrite !insertAt_nth by exact Hcaret.
  unfold Range_contains, inserted. cbn [start end_ data new_Text].
  destruct (Nat.ltb_spec i caret) as [Hbefore|Hafter].
  - destruct (Nat.leb_spec caret i); [lia|]. cbn [andb].
    destruct (nth_error (content d) i); reflexivity.
  - destruct (Nat.leb_spec caret i); [|lia].
    destruct (Nat.ltb_spec i (caret + String.length href1)) as [Hin|Hout].
    + cbn [andb]. rewrite !Text_items_nth.
      destruct (nth_error (list_ascii_of_string href1) (i - caret))
        as [c|] eqn:Hc; [|reflexivity].
      cbn [option_map].
      assert (Hlegal : legalAt (schema d)
        (insertAt caret (new_Text href1 (Some href1)) (content d)) i = true).
      { unfold legalAt. rewrite insertAt_nth by exact Hcaret.
        cbn [data new_Text].
        destruct (Nat.ltb_spec i caret); [lia|].
        destruct (Nat.ltb_spec i (caret + String.length href1)); [|lia].
        rewrite Text_items_nth, Hc. cbn [option_map Item_name].
        rewrite ancestors_inserted by (cbn [data new_Text]; lia).
        exact Hcheck. }
      rewrite Hlegal. reflexivity.
    + cbn [andb].
      destruct (nth_error (content d) (i - String.length href1));
        reflexivity.
Qed.

(** After [execute( href )] at a caret has left a selection that is not
    collapsed, [refresh()] reads [href] as the command's [value], on
    every engine whose selection has the attribute of the character it
    starts at. *)
Theorem refresh_after_execute_reads_href href this r :
  let d := document this in
  let once := exec (execute href) this in
  readsRangeStart engine ->
  eval Selection_isCollapsed d = true ->
  withinDocument d = true ->
  selection (document once) = [r] ->
  start r < end_ r ->
  value (exec refresh once) = Some href.
Proof.
  intros d once Hreads Hcollapsed Hwithin Hselection Hlt.
  rewrite refresh_value, Hselection.
  assert (Hcaret : firstPositionOf (selection d) <= List.length (content d)).
  { unfold withinDocument in Hwithin.
    rewrite (collapsed_caret _ Hcollapsed) in Hwithin. cbn in Hwithin.
    rewrite andb_true_r in Hwithin.
    apply andb_true_iff in Hwithin as [_ Hend].
    apply Nat.leb_le in Hend. exact Hend. }
  assert (Hstart : exists c,
    nth_error (content (document once)) (start r)
    = Some (Character c (Some href))).
  { unfold once in *. rewrite execute_selection in Hselection.
    rewrite execute_content. unfold issued, selectionAfter in *.
    pose proof (strategy_inv (document this)) as Hinv.
    destruct (strategyOf (document this)) eqn:Hstrategy.
    - injection Hselection as <-.
      cbn [replay fold_left applyOperation].
      pose proof (findLinkRange_spec (content d)
        (firstPositionOf (selection d))
        (selectionAttribute (content d) (selection d)))
        as [_ [Hrun _]].
      fold (linkRangeOf d) in Hrun.
      destruct (Hrun (start (linkRangeOf d))) as [it [Hit Hc]];
        [unfold d; lia|].
      destruct (carries_inv _ _ Hc) as [c [old [-> _]]].
      exists c. rewrite setAttributeOn_nth. fold d. rewrite Hit.
      unfold Range_contains.
      destruct (Nat.leb_spec (start (linkRangeOf d)) (start (linkRangeOf d)));
        [|lia].
      destruct (Nat.ltb_spec (start (linkRangeOf d)) (end_ (linkRangeOf d)));
        [|unfold d in *; lia].
      reflexivity.
    - cbn zeta in Hselection. unfold attachOffset in Hselection.
      fold d in Hselection. rewrite Nat.min_l in Hselection by exact Hcaret.
      injection Hselection as <-. cbn [start end_] in *.
      cbn [replay fold_left applyOperation]. fold d.
      rewrite insertAt_nth by exact Hcaret. cbn [data new_Text].
      destruct (Nat.ltb_spec (firstPositionOf (selection d))
                             (firstPositionOf (selection d))); [lia|].
      destruct (Nat.ltb_spec (firstPositionOf (selection d))
        (firstPositionOf (selection d) + String.length href)); [|lia].
      rewrite Nat.sub_diag, Text_items_nth.
      destruct href as [|c rest]; [cbn in Hlt; lia|].
      exists c. reflexivity.
    - exfalso. unfold d in Hcollapsed. congruence. }
  destruct Hstart as [c Hstart].
  apply (Hreads _ r c (Some href) Hlt Hstart).
Qed.

End Further.

(* ------------------------------------------------------------------ *)
(** * The further theorems at the example documents *)

Lemma skipn_from_nth (items : list Item) : forall n it,
  nth_error items n = Some it ->
  exists rest, skipn n items = it :: rest.
Proof.
  induction items as [|x xs IH]; intros [|n] it Hit; try discriminate.
  - injection Hit as <-. exists xs. reflexivity.
  - apply (IH n it Hit).
Qed.

(** The example engine reads the attribute of the character a range
    starts at. *)
Lemma exampleEngine_readsRangeStart : readsRangeStart exampleEngine.
Proof.
  intros items r c a Hlt Hstart. cbn.
  unfold exampleSelectionAttribute, Range_isCollapsed, slice.
  destruct (Nat.eqb_spec (start r) (end_ r)); [lia|].
  destruct (skipn_from_nth items _ _ Hstart) as [rest ->].
  destruct (end_ r - start r) as [|size] eqn:Hsize; [lia|]. reflexivity.
Qed.

(** At the caret in plain text and at the two ranges. *)
Lemma checkEnabled_without_selected_element_witness :
  eval Selection_isCollapsed (document plainCaret) = true
  /\ eval (_checkEnabled (engine := exampleEngine)) plainCaret = true
  /\ List.length (selection (document twoRanges)) <> 1
  /\ eval (_checkEnabled (engine := exampleEngine)) twoRanges = true.
Proof.
  assert (Htwo : List.length (selection (document twoRanges)) <> 1)
    by (cbn; lia).
  split; [reflexivity|]. split.
  - apply (checkEnabled_without_selected_element
             (engine := exampleEngine) plainCaret (or_introl eq_refl)).
  - split; [exact Htwo|].
    apply (checkEnabled_without_selected_element
             (engine := exampleEngine) twoRanges (or_intror Htwo)).
Defined.

(** At the two ranges. *)
Lemma execute_last_value_wins_witness :
  eval Selection_isCollapsed (document twoRanges) = false
  /\ content (document
       (exec (execute (engine := exampleEngine) "new")
             (exec (execute (engine := exampleEngine) "old") twoRanges)))
     = content (document
         (exec (execute (engine := exampleEngine) "new") twoRanges)).
Proof.
  split; [reflexivity|].
  apply (execute_last_value_wins
           (engine := exampleEngine) "old" "new" twoRanges eq_refl).
Defined.

(** At the caret in plain text. *)
Lemma execute_retargets_inserted_witness :
  eval Selection_isCollapsed (document plainCaret) = true
  /\ eval (Selection_hasAttribute (engine := exampleEngine))
          (document plainCaret) = false
  /\ 4 <= List.length (content (document plainCaret))
  /\ "href1" <> ""
  /\ check (schema (document plainCaret))
           (ancestors (content (document plainCaret)) 4) "$text" = true
  /\ content (document
       (exec (execute (engine := exampleEngine) "href2")
             (exec (execute (engine := exampleEngine) "href1") plainCaret)))
     = (text "abcd" None ++ text "href1" (Some "href2")
        ++ text "efgh" None)%list.
Proof.
  assert (Hin : 4 <= List.length (content (document plainCaret)))
    by (cbn; lia).
  assert (Hhref : "href1" <> "") by discriminate.
  split; [reflexivity|]. split; [reflexivity|]. split; [exact Hin|].
  split; [exact Hhref|]. split; [reflexivity|].
  apply (execute_retargets_inserted
           (engine := exampleEngine) "href1" "href2" plainCaret
           eq_refl eq_refl Hin Hhref eq_refl).
Defined.

(** At the caret inside the link. *)
Lemma execute_keeps_selection_within_witness :
  withinDocument (document insideLink) = true
  /\ withinDocument
       (document (exec (execute (engine := exampleEngine) "new") insideLink))
     = true.
Proof.
  split; [reflexivity|].
  apply (execute_keeps_selection_within
           (engine := exampleEngine) "new" insideLink eq_refl).
Defined.

(** At the caret inside the link. *)
Lemma refresh_after_execute_reads_href_witness :
  readsRangeStart exampleEngine
  /\ eval Selection_isCollapsed (document insideLink) = true
  /\ withinDocument (document insideLink) = true
  /\ selection (document (exec (execute (engine := exampleEngine) "new")
                               insideLink))
     = [new_Range 2 7]
  /\ 2 < 7
  /\ value (exec (refresh (engine := exampleEngine))
                 (exec (execute (engine := exampleEngine) "new") insideLink))
     = Some "new".
Proof.
  assert (Hlt : 2 < 7) by lia.
  split; [exact exampleEngine_readsRangeStart|].
  split; [reflexivity|]. split; [reflexivity|]. split; [reflexivity|].
  split; [exact Hlt|].
  apply (refresh_after_execute_reads_href
           (engine := exampleEngine) "new" insideLink (new_Range 2 7)
           exampleEngine_readsRangeStart eq_refl eq_refl eq_refl Hlt).
Defined.

(* ------------------------------------------------------------------ *)
(** * The command as it is run, and the call repeated *)

Section Run.

Context {engine : Engine}.





End Run.





